(** * Verification of the resource-aware task queue (main.py)

    The development embeds the three classes of [main.py] -- [Resources],
    [Task] and [TaskQueue] -- together with the two pieces of the Python
    standard library the queue relies on ([bisect.insort_right] and the
    lexicographic comparison of tuples), and proves the properties of the
    ordering and of the admission scan. *)

From Equations Require Import Equations.
From stdpp Require Import base numbers list sorting strings.

Open Scope Z_scope.

(** ** Exceptions

    Python signals an out-of-range list access with [IndexError].  The
    operations below that index a list live in the error monad [M]. *)

Inductive exn : Set := IndexError.

Definition M (A : Type) : Type := exn + A.

Definition raise {A} (e : exn) : M A := inl e.

#[global] Instance M_ret : MRet M := λ A a, inr a.
#[global] Instance M_bind : MBind M := λ A B k m,
  match m with
  | inl e => inl e
  | inr a => k a
  end.

(** ** Resources *)

Module Resources.

Record t : Set := Build { ram : Z; cpu_cores : Z; gpu_count : Z }.

(** [dataclasses.astuple] *)
Definition astuple (r : t) : list Z := [ram r; cpu_cores r; gpu_count r].

(** The builtin [sum] over a list of integers. *)
Definition sum (l : list Z) : Z := foldl Z.add 0 l.

(** The generated [__eq__] of a dataclass compares the field tuples. *)
Definition eq (self other : t) : bool :=
  bool_decide (astuple self = astuple other).

(** [__lt__]: [sum(astuple(self)) < sum(astuple(other))] *)
Definition lt (self other : t) : bool :=
  sum (astuple self) <? sum (astuple other).

(** [satisfy]: [all(map(le, astuple(self), astuple(available_resources)))] *)
Definition satisfy (self available_resources : t) : bool :=
  forallb id (zip_with Z.leb (astuple self) (astuple available_resources)).

End Resources.

(** ** Task *)

Module Task.

Record t : Set := Build {
  id : Z;
  priority : Z;
  resources : Resources.t;
  content : string;
  result : string
}.

(** [__lt__]:
    [(self.priority, other.resources) < (other.priority, self.resources)].

    Python compares two tuples by locating the first position at which
    the components are not [==] and answering with [<] on that pair; two
    tuples of the same length whose components are all [==] are not
    [<]. *)
Definition lt (self other : t) : bool :=
  if negb (priority self =? priority other) then
    priority self <? priority other
  else if negb (Resources.eq (resources other) (resources self)) then
    Resources.lt (resources other) (resources self)
  else false.

End Task.

(** ** The list operations of Python used by the queue *)

Section PyList.
Context {A : Type}.

(** [a[i]] for a non-negative index. *)
Definition getitem (a : list A) (i : nat) : M A :=
  match a !! i with
  | Some x => mret x
  | None => raise IndexError
  end.

(** [a.insert(i, x)] for a non-negative index: an index past the end
    appends. *)
Definition list_insert_at (i : nat) (x : A) (a : list A) : list A :=
  take i a ++ x :: drop i a.

(** [a.pop(i)] for a non-negative index. *)
Definition pop (i : nat) (a : list A) : M (A * list A) :=
  match a !! i with
  | Some x => mret (x, delete i a)
  | None => raise IndexError
  end.

End PyList.

(** ** bisect

    [bisect.bisect_right(a, x)] with the default bounds [lo = 0] and
    [hi = len(a)] and no key function:
<<
    while lo < hi:
        mid = (lo + hi) // 2
        if x < a[mid]: hi = mid
        else: lo = mid + 1
    return lo
>> *)

Equations? bisect_loop (x : Task.t) (a : list Task.t) (lo hi : nat) : M nat
  by wf (hi - lo)%nat lt :=
  bisect_loop x a lo hi with decide (lo < hi)%nat := {
    | left _ with getitem a ((lo + hi) / 2)%nat := {
        | inl e := raise e
        | inr am with Task.lt x am := {
            | true := bisect_loop x a lo ((lo + hi) / 2)%nat
            | false := bisect_loop x a ((lo + hi) / 2 + 1)%nat hi } }
    | right _ := mret lo }.
Proof.
  all: pose proof (Nat.div_mod_eq (lo + hi) 2);
    pose proof (Nat.mod_upper_bound (lo + hi) 2); lia.
Qed.

Definition bisect_right (a : list Task.t) (x : Task.t) : M nat :=
  bisect_loop x a 0 (length a).

(** [bisect.insort_right(a, x)] *)
Definition insort_right (a : list Task.t) (x : Task.t) : M (list Task.t) :=
  lo ← bisect_right a x;
  mret (list_insert_at lo x a).

(** ** TaskQueue *)

Module TaskQueue.

(** The only attribute of a [TaskQueue] is the list [self.queue]. *)
Abbreviation t := (list Task.t).

(** [__init__] *)
Definition init : t := [].

(** [add_task] *)
Definition add_task (task : Task.t) (queue : t) : M t :=
  insort_right queue task.

(** The [for] loop of [get_task] over the pairs [(i, task)]: the index of
    the first pair whose task fits, if any. *)
Fixpoint scan (available_resources : Resources.t)
    (pairs : list (nat * Task.t)) : option nat :=
  match pairs with
  | [] => None
  | (i, task) :: rest =>
      if Resources.satisfy (Task.resources task) available_resources
      then Some i
      else scan available_resources rest
  end.

(** [get_task]: the result and the queue after the call. *)
Definition get_task (available_resources : Resources.t) (queue : t)
    : M (option Task.t * t) :=
  match queue with
  | [] => mret (None, queue)
  | _ =>
      let indices := seq 0 (length queue) in
      match scan available_resources (zip (reverse indices) (reverse queue)) with
      | Some i => '(task, queue') ← pop i queue; mret (Some task, queue')
      | None => mret (None, queue)
      end
  end.

End TaskQueue.

(** ** Callers

    The loop of [add_tasks] in the test class, for any list of tasks:
    [for task in tasks: add_task(task)]. *)

Fixpoint add_tasks (tasks : list Task.t) (queue : TaskQueue.t) : M TaskQueue.t :=
  match tasks with
  | [] => mret queue
  | task :: rest => queue' ← TaskQueue.add_task task queue; add_tasks rest queue'
  end.

(** An arbitrary client: a sequence of calls on one queue, collecting what
    the [get_task] calls return. *)

Inductive call : Set :=
| Add (task : Task.t)
| Get (available_resources : Resources.t).

Fixpoint exec (calls : list call) (queue : TaskQueue.t)
    : M (list (option Task.t) * TaskQueue.t) :=
  match calls with
  | [] => mret ([], queue)
  | Add task :: rest =>
      queue' ← TaskQueue.add_task task queue; exec rest queue'
  | Get available :: rest =>
      '(r, queue') ← TaskQueue.get_task available queue;
      '(rs, queue'') ← exec rest queue';
      mret (r :: rs, queue'')
  end.

(** The tasks handed to the queue by a sequence of calls. *)
Definition added (calls : list call) : list Task.t :=
  omap (λ c, match c with Add task => Some task | Get _ => None end) calls.

(** The tasks handed out by a sequence of results. *)
Definition returned (rs : list (option Task.t)) : list Task.t := omap id rs.

(** ** The reference task set of the tests *)

Definition mk (i p : Z) (ram cpu gpu : Z) : Task.t :=
  Task.Build i p (Resources.Build ram cpu gpu) EmptyString EmptyString.

Definition reference_tasks : list Task.t :=
  [ mk 1 1 3 1 2; mk 2 4 1 1 5; mk 3 6 2 8 0; mk 4 6 8 1 0;
    mk 5 7 2 2 2; mk 6 2 2 1 2; mk 7 7 6 6 6; mk 8 7 4 4 4 ].

Definition reference_queue : TaskQueue.t :=
  [ mk 1 1 3 1 2; mk 6 2 2 1 2; mk 2 4 1 1 5; mk 3 6 2 8 0;
    mk 4 6 8 1 0; mk 7 7 6 6 6; mk 8 7 4 4 4; mk 5 7 2 2 2 ].

(** Small task sets used as examples: one task stored twice, and two
    order-equivalent tasks next to a more urgent one. *)

Definition duplicate : Task.t := mk 1 1 1 1 1.

Definition older : Task.t := mk 1 1 1 1 1.
Definition newer : Task.t := mk 2 1 1 1 1.
Definition urgent : Task.t := mk 3 2 1 1 1.
Definition bulky : Task.t := mk 3 2 5 5 5.

(** ** Vocabulary of the specification *)

(** Magnitude of a resource vector: the sum of its dimensions. *)
Definition magnitude (r : Resources.t) : Z :=
  Resources.ram r + Resources.cpu_cores r + Resources.gpu_count r.

(** Dominance: every dimension of [required] is at most the same dimension
    of [available]. *)
Definition dominated (required available : Resources.t) : Prop :=
  ∀ (i : nat) (x y : Z),
    Resources.astuple required !! i = Some x →
    Resources.astuple available !! i = Some y →
    x ≤ y.

(** A task fits when its requirement passes [satisfy]. *)
Definition fits (available : Resources.t) (task : Task.t) : bool :=
  Resources.satisfy (Task.resources task) available.

(** The composite order: priority ascending, then magnitude descending.
    [key_le a b] says that [a] may stand in front of [b]. *)
Definition key_le (a b : Task.t) : Prop :=
  Task.priority a < Task.priority b ∨
  (Task.priority a = Task.priority b ∧
   magnitude (Task.resources b) ≤ magnitude (Task.resources a)).

(** Two tasks are order-equivalent when they have the same priority and the
    same magnitude. *)
Definition order_equiv (a b : Task.t) : Prop :=
  Task.priority a = Task.priority b ∧
  magnitude (Task.resources a) = magnitude (Task.resources b).

(** A sequence is sorted when every pair of positions is in order. *)
Definition sorted_by_key (queue : list Task.t) : Prop :=
  ∀ (i j : nat) (a b : Task.t),
    (i < j)%nat → queue !! i = Some a → queue !! j = Some b → key_le a b.

(** Equality of tasks and the order relations are decidable. *)

#[local] Instance Resources_eq_dec : EqDecision Resources.t.
Proof. solve_decision. Defined.

#[local] Instance Task_eq_dec : EqDecision Task.t.
Proof. solve_decision. Defined.

#[local] Instance key_le_dec : RelDecision key_le.
Proof. intros a b. unfold key_le. apply _. Defined.

#[local] Instance order_equiv_dec : RelDecision order_equiv.
Proof. intros a b. unfold order_equiv. apply _. Defined.

#[local] Ltac by_computation :=
  apply (bool_decide_unpack _); vm_compute; exact I.

Arguments Resources.satisfy : simpl never.
Arguments fits : simpl never.

(** * Properties *)

(** ** Resources *)

Lemma sum_astuple r : Resources.sum (Resources.astuple r) = magnitude r.
Proof. destruct r; reflexivity. Qed.

Lemma Resources_lt_magnitude a b :
  Resources.lt a b = true ↔ magnitude a < magnitude b.
Proof. unfold Resources.lt. rewrite !sum_astuple. apply Z.ltb_lt. Qed.

Lemma satisfy_fields r a :
  Resources.satisfy r a = true ↔
  Resources.ram r ≤ Resources.ram a ∧
  Resources.cpu_cores r ≤ Resources.cpu_cores a ∧
  Resources.gpu_count r ≤ Resources.gpu_count a.
Proof.
  destruct r as [r1 r2 r3], a as [a1 a2 a3]; unfold Resources.satisfy; cbn.
  rewrite !andb_true_iff, !Z.leb_le. tauto.
Qed.

Lemma dominated_fields r a :
  dominated r a ↔
  Resources.ram r ≤ Resources.ram a ∧
  Resources.cpu_cores r ≤ Resources.cpu_cores a ∧
  Resources.gpu_count r ≤ Resources.gpu_count a.
Proof.
  destruct r as [r1 r2 r3], a as [a1 a2 a3]; unfold dominated; cbn. split.
  - intros H. split_and!.
    + by apply (H 0%nat).
    + by apply (H 1%nat).
    + by apply (H 2%nat).
  - intros (H1 & H2 & H3) [|[|[|i]]] x y; cbn; intros; simplify_eq; done.
Qed.

(** C6.  [satisfy(required, available)] is true exactly when every dimension
    of [required] is at most the same dimension of [available]: the ram, the
    cpu cores and the gpu count, each compared as integers, negative ones
    included.  The same holds read dimension by dimension through
    [dominated]. *)
Theorem satisfy_iff_componentwise (required available : Resources.t) :
  (Resources.satisfy required available = true ↔
   Resources.ram required ≤ Resources.ram available ∧
   Resources.cpu_cores required ≤ Resources.cpu_cores available ∧
   Resources.gpu_count required ≤ Resources.gpu_count available) ∧
  (Resources.satisfy required available = true ↔
   dominated required available).
Proof.
  split; [apply satisfy_fields|].
  by rewrite satisfy_fields, dominated_fields.
Qed.

(** C7.  [a < b] on resource vectors holds exactly when the sum of the three
    dimensions of [a] (ram, cpu cores, gpu count) is strictly below that of
    [b]; two vectors of equal sum are therefore unordered, whatever their
    composition. *)
Theorem Resources_lt_iff_magnitude :
  (∀ a b : Resources.t,
     Resources.lt a b = true ↔
     Resources.ram a + Resources.cpu_cores a + Resources.gpu_count a
       < Resources.ram b + Resources.cpu_cores b + Resources.gpu_count b) ∧
  (∀ a b : Resources.t,
     Resources.ram a + Resources.cpu_cores a + Resources.gpu_count a
       = Resources.ram b + Resources.cpu_cores b + Resources.gpu_count b →
     Resources.lt a b = false ∧ Resources.lt b a = false).
Proof.
  split.
  - intros a b. apply Resources_lt_magnitude.
  - intros a b E.
    split; apply not_true_iff_false; rewrite Resources_lt_magnitude;
      unfold magnitude; lia.
Qed.

(** ** Task order *)

Lemma Resources_eq_magnitude a b :
  Resources.eq a b = true → magnitude a = magnitude b.
Proof.
  unfold Resources.eq. rewrite bool_decide_eq_true.
  destruct a, b; cbn. intros [= -> -> ->]. reflexivity.
Qed.

Lemma Task_lt_spec a b :
  Task.lt a b = true ↔
  Task.priority a < Task.priority b ∨
  (Task.priority a = Task.priority b ∧
   magnitude (Task.resources b) < magnitude (Task.resources a)).
Proof.
  unfold Task.lt.
  destruct (Z.eqb_spec (Task.priority a) (Task.priority b)) as [E|N]; cbn.
  - destruct (Resources.eq (Task.resources b) (Task.resources a)) eqn:Q; cbn.
    + apply Resources_eq_magnitude in Q. split; [done | lia].
    + rewrite Resources_lt_magnitude. split; [tauto | lia].
  - rewrite Z.ltb_lt. split; [tauto | lia].
Qed.

Lemma Task_lt_false a b : Task.lt b a = false ↔ key_le a b.
Proof.
  rewrite <- not_true_iff_false, Task_lt_spec. unfold key_le. lia.
Qed.

(** ** Sorted sequences *)

Lemma sorted_by_key_StronglySorted q :
  sorted_by_key q ↔ StronglySorted key_le q.
Proof.
  split.
  - induction q as [|a q IH]; intros H; constructor.
    + apply IH. intros i j x y Hij Hi Hj. by apply (H (S i) (S j)); [lia|..].
    + apply list.Forall_forall. intros b [j Hj]%list_elem_of_lookup.
      by apply (H 0%nat (S j)); [lia|..].
  - induction 1 as [|a q Hq IH Ha]; intros i j x y Hij Hi Hj.
    + by rewrite lookup_nil in Hi.
    + destruct j as [|j]; [lia|]. cbn in Hj. destruct i as [|i]; cbn in Hi.
      * simplify_eq. rewrite list.Forall_forall in Ha.
        apply Ha. by eapply list_elem_of_lookup_2.
      * apply (IH i j); [lia | done..].
Qed.

#[local] Instance key_le_trans : Transitive key_le.
Proof. intros a b c. unfold key_le. lia. Qed.

Lemma key_le_total a b : key_le a b ∨ key_le b a.
Proof. unfold key_le. lia. Qed.

Lemma Task_lt_key_le x e : Task.lt x e = true → key_le x e.
Proof. rewrite Task_lt_spec. unfold key_le. lia. Qed.

(** ** bisect *)

Lemma bisect_loop_spec x a lo hi :
  (lo ≤ hi ≤ length a)%nat →
  ∃ p, bisect_loop x a lo hi = inr p ∧ (lo ≤ p ≤ hi)%nat ∧
    (sorted_by_key a →
     (∀ i e, (i < lo)%nat → a !! i = Some e → Task.lt x e = false) →
     (∀ i e, (hi ≤ i)%nat → a !! i = Some e → Task.lt x e = true) →
     (∀ i e, (i < p)%nat → a !! i = Some e → Task.lt x e = false) ∧
     (∀ i e, (p ≤ i)%nat → a !! i = Some e → Task.lt x e = true)).
Proof.
  funelim (bisect_loop x a lo hi); intros Hb.
  all: pose proof (Nat.div_mod_eq (lo + hi) 2);
    pose proof (Nat.mod_upper_bound (lo + hi) 2 ltac:(lia)).
  - exists lo. split_and!; [done | lia | lia |].
    intros _ Hlo Hhi. split; [done|].
    intros i e Hi. apply Hhi. lia.
  - unfold getitem in Heq.
    destruct (a !! ((lo + hi) / 2)%nat) eqn:E; [done|].
    apply lookup_ge_None in E. lia.
  - unfold getitem in Heq0.
    destruct (a !! ((lo + hi) / 2)%nat) as [am'|] eqn:E; [|done].
    injection Heq0 as ->.
    destruct H as (p & Hp & Hr & Hs); [lia|].
    exists p. split; [done|]. split; [lia|].
    intros Hsort Hlo Hhi. apply Hs; [done | done |].
    intros i e Hi He.
    destruct (decide (i = (lo + hi) / 2)%nat) as [->|]; [congruence|].
    assert (key_le am e) as Hle
      by (apply (Hsort ((lo + hi) / 2)%nat i); [lia | done..]).
    apply Task_lt_spec. apply Task_lt_spec in Heq.
    unfold key_le in Hle. lia.
  - unfold getitem in Heq0.
    destruct (a !! ((lo + hi) / 2)%nat) as [am'|] eqn:E; [|done].
    injection Heq0 as ->.
    destruct H as (p & Hp & Hr & Hs); [lia|].
    exists p. split; [done|]. split; [lia|].
    intros Hsort Hlo Hhi. apply Hs; [done | | done].
    intros i e Hi He.
    destruct (decide (i = (lo + hi) / 2)%nat) as [->|]; [congruence|].
    assert (key_le e am) as Hle
      by (apply (Hsort i ((lo + hi) / 2)%nat); [lia | done..]).
    apply Task_lt_false. apply Task_lt_false in Heq.
    by etrans.
Qed.

(** ** add_task *)

Lemma add_task_position task queue :
  ∃ p, (p ≤ length queue)%nat ∧
    TaskQueue.add_task task queue = inr (take p queue ++ task :: drop p queue) ∧
    (sorted_by_key queue →
     Forall (λ e, Task.lt task e = false) (take p queue) ∧
     Forall (λ e, Task.lt task e = true) (drop p queue)).
Proof.
  destruct (bisect_loop_spec task queue 0 (length queue)) as (p & Hp & Hr & Hs);
    [lia|].
  exists p. split; [lia|]. split.
  - unfold TaskQueue.add_task, insort_right, bisect_right. by rewrite Hp.
  - intros Hsort. destruct Hs as [Hlo Hhi]; [done | intros; lia | |].
    { intros i e Hi He. apply lookup_lt_Some in He. lia. }
    split; apply list.Forall_forall; intros e [i Hi]%list_elem_of_lookup.
    + apply lookup_take_Some in Hi as [Hi ?]. by apply (Hlo i).
    + rewrite lookup_drop in Hi. apply (Hhi (p + i)%nat); [lia | done].
Qed.

Lemma add_task_split task queue :
  sorted_by_key queue →
  ∃ l1 l2, queue = l1 ++ l2 ∧
    TaskQueue.add_task task queue = inr (l1 ++ task :: l2) ∧
    Forall (λ e, Task.lt task e = false) l1 ∧
    Forall (λ e, Task.lt task e = true) l2.
Proof.
  intros Hsort. destruct (add_task_position task queue) as (p & _ & Hq & Hs).
  exists (take p queue), (drop p queue).
  by rewrite take_drop; split_and!; [| |apply Hs..].
Qed.

Lemma add_task_sorted task queue queue' :
  sorted_by_key queue →
  TaskQueue.add_task task queue = inr queue' →
  sorted_by_key queue'.
Proof.
  intros Hsort Hadd.
  destruct (add_task_split task queue Hsort) as (l1 & l2 & -> & Hq & H1 & H2).
  rewrite Hq in Hadd. injection Hadd as <-.
  rewrite sorted_by_key_StronglySorted in *.
  apply StronglySorted_app in Hsort as (S12 & S1 & S2).
  apply StronglySorted_app. split_and!; [|done|].
  - rewrite list.Forall_forall in H1.
    intros x1 x2 Hx1 [->|Hx2]%elem_of_cons.
    + apply Task_lt_false. by apply H1.
    + by apply S12.
  - constructor; [done|].
    eapply Forall_impl; [exact H2|]. intros e. apply Task_lt_key_le.
Qed.

(** ** get_task *)

Lemma scan_reversed available queue :
  match
    TaskQueue.scan available
      (zip (reverse (seq 0 (length queue))) (reverse queue))
  with
  | Some i =>
      ∃ l1 task l2, queue = l1 ++ task :: l2 ∧ length l1 = i ∧
        fits available task = true ∧
        Forall (λ e, fits available e = false) l2
  | None => Forall (λ e, fits available e = false) queue
  end.
Proof.
  induction queue as [|x q IH] using rev_ind; [by constructor|].
  rewrite length_app, seq_app, !reverse_app. cbn.
  change (Resources.satisfy (Task.resources x) available) with (fits available x).
  destruct (fits available x) eqn:Hx.
  - exists q, x, []. split_and!; [done | lia | done | constructor].
  - destruct (TaskQueue.scan _ _) as [i|].
    + destruct IH as (l1 & t & l2 & -> & Hl & Ht & Hf).
      exists l1, t, (l2 ++ [x]). rewrite <- app_assoc. split_and!; try done.
      apply Forall_app. split; [done|]. by constructor.
    + apply Forall_app. split; [done|]. by constructor.
Qed.

(** The two outcomes of [get_task]. *)
Lemma get_task_cases available queue :
  (Forall (λ e, fits available e = false) queue ∧
   TaskQueue.get_task available queue = inr (None, queue)) ∨
  (∃ l1 task l2, queue = l1 ++ task :: l2 ∧
     fits available task = true ∧
     Forall (λ e, fits available e = false) l2 ∧
     TaskQueue.get_task available queue = inr (Some task, l1 ++ l2)).
Proof.
  pose proof (scan_reversed available queue) as H.
  unfold TaskQueue.get_task.
  destruct queue as [|x q]; [left; by split|].
  destruct (TaskQueue.scan _ _) as [i|].
  - right. destruct H as (l1 & t & l2 & E & Hl & Ht & Hf).
    exists l1, t, l2. split_and!; try done.
    rewrite E. unfold pop.
    rewrite list_lookup_middle by done. cbn.
    rewrite delete_take_drop, <- Hl, take_app_length.
    rewrite (cons_middle t), app_assoc.
    by rewrite drop_app_length' by (rewrite length_app; cbn; lia).
  - left. by split.
Qed.

Lemma fits_dominated available task :
  fits available task = true ↔ dominated (Task.resources task) available.
Proof. unfold fits. by rewrite satisfy_fields, dominated_fields. Qed.

Lemma fits_not_dominated available task :
  fits available task = false ↔ ¬ dominated (Task.resources task) available.
Proof. rewrite <- fits_dominated. by destruct (fits available task). Qed.

Lemma get_task_Some available queue task queue' :
  TaskQueue.get_task available queue = inr (Some task, queue') →
  ∃ l1 l2, queue = l1 ++ task :: l2 ∧ queue' = l1 ++ l2 ∧
    fits available task = true ∧
    Forall (λ e, fits available e = false) l2.
Proof.
  destruct (get_task_cases available queue)
    as [[_ ->]|(l1 & t & l2 & E & Ht & Hf & ->)]; [done|].
  intros [= <- <-]. by exists l1, l2.
Qed.

Lemma get_task_None available queue queue' :
  TaskQueue.get_task available queue = inr (None, queue') →
  queue' = queue ∧ Forall (λ e, fits available e = false) queue.
Proof.
  destruct (get_task_cases available queue)
    as [[Hf ->]|(l1 & t & l2 & E & Ht & _ & ->)]; [|done].
  by intros [= <-].
Qed.

Lemma get_task_total available queue :
  ∃ r queue', TaskQueue.get_task available queue = inr (r, queue').
Proof.
  destruct (get_task_cases available queue)
    as [[_ ->]|(l1 & t & l2 & _ & _ & _ & ->)]; eauto.
Qed.

Lemma get_task_sorted available queue r queue' :
  sorted_by_key queue →
  TaskQueue.get_task available queue = inr (r, queue') →
  sorted_by_key queue'.
Proof.
  intros Hsort Hget. destruct r as [task|].
  - apply get_task_Some in Hget as (l1 & l2 & -> & -> & _).
    rewrite sorted_by_key_StronglySorted in *.
    apply StronglySorted_app in Hsort as (S12 & S1 & S2).
    apply StronglySorted_cons in S2 as [_ S2].
    apply StronglySorted_app. split_and!; [|done..].
    intros x1 x2 ? ?. apply S12; [done|]. by apply elem_of_cons; right.
  - by apply get_task_None in Hget as [-> _].
Qed.

(** C1.  When some stored task fits, [get_task] hands out the fitting task
    closest to the back -- no task at a later position fits -- and removes
    exactly that entry.  This holds for every content of the list, sorted
    or not. *)
Theorem get_task_greedy (queue : TaskQueue.t) (available : Resources.t) :
  (∃ task, task ∈ queue ∧ dominated (Task.resources task) available) →
  ∃ (i : nat) (task : Task.t),
    queue !! i = Some task ∧
    TaskQueue.get_task available queue = inr (Some task, delete i queue) ∧
    dominated (Task.resources task) available ∧
    ∀ (j : nat) (other : Task.t),
      (i < j)%nat → queue !! j = Some other →
      ¬ dominated (Task.resources other) available.
Proof.
  intros (t0 & Hin & Hfit%fits_dominated).
  destruct (get_task_cases available queue)
    as [[Hf _]|(l1 & t & l2 & -> & Ht & Hf & Hget)].
  - rewrite list.Forall_forall in Hf. rewrite (Hf _ Hin) in Hfit. done.
  - exists (length l1), t. split_and!.
    + by apply list_lookup_middle.
    + rewrite Hget, delete_take_drop, take_app_length.
      rewrite (cons_middle t), app_assoc.
      by rewrite drop_app_length' by (rewrite length_app; cbn; lia).
    + by apply fits_dominated.
    + intros j other Hj Hl. apply fits_not_dominated.
      rewrite list.Forall_forall in Hf. apply Hf.
      rewrite lookup_app_r in Hl by lia.
      destruct (j - length l1)%nat as [|k] eqn:Ek; [lia|].
      cbn in Hl. by eapply list_elem_of_lookup_2.
Qed.

(** C3.  A task handed out by [get_task] always fits: each dimension of its
    requirement is at most the same dimension of the available vector. *)
Theorem get_task_admissible (queue queue' : TaskQueue.t)
    (available : Resources.t) (task : Task.t) :
  TaskQueue.get_task available queue = inr (Some task, queue') →
  dominated (Task.resources task) available.
Proof.
  intros (l1 & l2 & _ & _ & Ht & _)%get_task_Some. by apply fits_dominated.
Qed.

(** C5.  On the empty queue, and on a queue none of whose tasks fits,
    [get_task] answers [None] and leaves the queue as it was; on no input
    at all does it raise. *)
Theorem get_task_no_fit (queue : TaskQueue.t) (available : Resources.t) :
  (∀ task, task ∈ queue → ¬ dominated (Task.resources task) available) →
  TaskQueue.get_task available TaskQueue.init = inr (None, TaskQueue.init) ∧
  TaskQueue.get_task available queue = inr (None, queue) ∧
  (∀ q a, ∃ r q', TaskQueue.get_task a q = inr (r, q')).
Proof.
  intros Hno. split_and!; [done | | intros; apply get_task_total].
  destruct (get_task_cases available queue)
    as [[_ ->]|(l1 & t & l2 & -> & Ht%fits_dominated & _)]; [done|].
  destruct (Hno t); [|done]. apply elem_of_app. right. by left.
Qed.

(** ** Sequences of calls *)

Lemma add_task_Permutation task queue queue' :
  TaskQueue.add_task task queue = inr queue' → queue' ≡ₚ task :: queue.
Proof.
  destruct (add_task_position task queue) as (p & _ & -> & _).
  intros [= <-]. by rewrite <- Permutation_middle, take_drop.
Qed.

Lemma add_tasks_sorted tasks queue :
  sorted_by_key queue →
  ∃ queue', add_tasks tasks queue = inr queue' ∧ sorted_by_key queue' ∧
    queue' ≡ₚ tasks ++ queue.
Proof.
  revert queue. induction tasks as [|t ts IH]; intros q Hq; cbn.
  - by exists q.
  - destruct (add_task_position t q) as (p & _ & Hadd & _).
    rewrite Hadd; cbn.
    destruct (IH (take p q ++ t :: drop p q)) as (q' & Hq' & Hs & Hp).
    { by eapply add_task_sorted. }
    exists q'. split_and!; [done..|].
    rewrite Hp. apply add_task_Permutation in Hadd. rewrite Hadd.
    by rewrite Permutation_middle.
Qed.

Lemma exec_sorted calls queue :
  sorted_by_key queue →
  ∃ rs queue', exec calls queue = inr (rs, queue') ∧ sorted_by_key queue'.
Proof.
  revert queue. induction calls as [|[t|a] cs IH]; intros q Hq; cbn.
  - by exists [], q.
  - destruct (add_task_position t q) as (p & _ & Hadd & _).
    rewrite Hadd; cbn. apply IH. by eapply add_task_sorted.
  - destruct (get_task_total a q) as (r & q1 & Hget).
    rewrite Hget; cbn.
    destruct (IH q1) as (rs & q2 & -> & Hs); [by eapply get_task_sorted|].
    cbn. by exists (r :: rs), q2.
Qed.

Lemma exec_Permutation calls queue rs queue' :
  exec calls queue = inr (rs, queue') →
  queue ++ added calls ≡ₚ returned rs ++ queue'.
Proof.
  revert queue rs. induction calls as [|[t|a] cs IH]; intros q rs; cbn.
  - intros [= <- <-]. by rewrite (right_id [] _).
  - destruct (TaskQueue.add_task t q) as [e|q1] eqn:Hadd; [done|]; cbn.
    intros H%IH. rewrite <- H.
    apply add_task_Permutation in Hadd. rewrite Hadd.
    unfold added; cbn. by rewrite Permutation_middle.
  - destruct (TaskQueue.get_task a q) as [e|[r q1]] eqn:Hget; [done|]; cbn.
    destruct (exec cs q1) as [e|[rs1 q2]] eqn:Hex; [done|]; cbn.
    intros [= <- <-]. apply IH in Hex. unfold added in *; cbn.
    destruct r as [t|]; unfold returned in *; cbn.
    + apply get_task_Some in Hget as (l1 & l2 & -> & -> & _).
      rewrite <- Hex, <- !app_assoc. cbn. by rewrite <- Permutation_middle.
    + by apply get_task_None in Hget as [-> _].
Qed.

(** C2.  Every [add_task] and every [get_task] turns a sorted queue into a
    sorted queue, without raising; hence after each step of any sequence of
    [add_task] calls on a fresh queue -- and of any sequence of calls of
    either kind -- the list is sorted: priorities ascend, and among equal
    priorities magnitudes descend. *)
Theorem sortedness_invariant (queue : TaskQueue.t) :
  sorted_by_key queue →
  (∀ task, ∃ queue',
     TaskQueue.add_task task queue = inr queue' ∧ sorted_by_key queue') ∧
  (∀ available, ∃ r queue',
     TaskQueue.get_task available queue = inr (r, queue') ∧
     sorted_by_key queue') ∧
  (∀ tasks k, ∃ queue',
     add_tasks (take k tasks) TaskQueue.init = inr queue' ∧
     sorted_by_key queue') ∧
  (∀ calls, ∃ rs queue',
     exec calls TaskQueue.init = inr (rs, queue') ∧ sorted_by_key queue').
Proof.
  assert (sorted_by_key TaskQueue.init) as Hinit
    by (intros i j a b _ Hi; unfold TaskQueue.init in Hi;
        by rewrite lookup_nil in Hi).
  intros Hsort. split_and!.
  - intros task. destruct (add_task_position task queue) as (p & _ & Hadd & _).
    eexists. split; [exact Hadd|]. by eapply add_task_sorted.
  - intros available. destruct (get_task_total available queue) as (r & q' & Hget).
    exists r, q'. split; [done|]. by eapply get_task_sorted.
  - intros tasks k.
    destruct (add_tasks_sorted (take k tasks) TaskQueue.init Hinit)
      as (q' & ? & ? & _).
    by exists q'.
  - intros calls. by apply exec_sorted.
Qed.

(** ** Removal *)

Lemma lookup_occurs_once {A} (l1 l2 : list A) (x : A) :
  x ∉ l1 ++ l2 ↔
  ∀ j k, (l1 ++ x :: l2) !! j = Some x → (l1 ++ x :: l2) !! k = Some x → j = k.
Proof.
  split.
  - intros Hnot.
    assert (∀ j, (l1 ++ x :: l2) !! j = Some x → j = length l1) as Hpos.
    { intros j Hj. destruct (decide (j < length l1)%nat).
      - rewrite lookup_app_l in Hj by done.
        destruct Hnot. apply elem_of_app. left. by eapply list_elem_of_lookup_2.
      - rewrite lookup_app_r in Hj by lia.
        destruct (j - length l1)%nat as [|d] eqn:E; [lia|]. cbn in Hj.
        destruct Hnot. apply elem_of_app. right.
        by eapply list_elem_of_lookup_2. }
    intros j k Hj%Hpos Hk%Hpos. lia.
  - intros Huniq [Hin|Hin]%elem_of_app.
    + apply list_elem_of_lookup in Hin as [j Hj].
      pose proof (lookup_lt_Some _ _ _ Hj).
      specialize (Huniq j (length l1)).
      rewrite lookup_app_l, list_lookup_middle in Huniq by done.
      specialize (Huniq Hj eq_refl). lia.
    + apply list_elem_of_lookup in Hin as [j Hj].
      specialize (Huniq (length l1 + S j)%nat (length l1)).
      rewrite lookup_app_r, list_lookup_middle in Huniq by (done || lia).
      replace (length l1 + S j - length l1)%nat with (S j) in Huniq by lia.
      specialize (Huniq Hj eq_refl). lia.
Qed.

(** C4, as stated, fails when the queue holds the same task twice: after
    two [add_task] calls with one task, [get_task] hands it out and the
    queue still holds it. *)
Lemma get_task_duplicate_remains :
  add_tasks [duplicate; duplicate] TaskQueue.init = inr [duplicate; duplicate] ∧
  TaskQueue.get_task (Resources.Build 1 1 1) [duplicate; duplicate]
    = inr (Some duplicate, [duplicate]) ∧
  duplicate ∈ [duplicate].
Proof. split_and!; [by vm_compute | by vm_compute | by left]. Qed.

(** C4, amended.  A successful [get_task] deletes the one entry it hands
    out: the queue is one shorter and the other entries keep their order.
    The task is absent afterwards exactly when it was stored once, which is
    the case whenever the stored identifiers are pairwise distinct. *)
Theorem get_task_removes (queue queue' : TaskQueue.t)
    (available : Resources.t) (task : Task.t) :
  TaskQueue.get_task available queue = inr (Some task, queue') →
  ∃ l1 l2, queue = l1 ++ task :: l2 ∧ queue' = l1 ++ l2 ∧
    length queue' = (length queue - 1)%nat ∧
    (task ∉ queue' ↔
     ∀ j k, queue !! j = Some task → queue !! k = Some task → j = k) ∧
    (NoDup (Task.id <$> queue) → task ∉ queue').
Proof.
  intros (l1 & l2 & -> & -> & _)%get_task_Some.
  exists l1, l2. split_and!; [done | done | | |].
  - rewrite !length_app. cbn. lia.
  - apply lookup_occurs_once.
  - intros Hnd. apply lookup_occurs_once. intros j k Hj Hk.
    eapply NoDup_lookup; [exact Hnd|..]; rewrite list_lookup_fmap.
    + by rewrite Hj.
    + by rewrite Hk.
Qed.

(** C10.  Neither operation alters a task.  [add_task] stores the task it is
    given between two parts of the old list, [get_task] hands out one entry
    and keeps the others, and over any sequence of calls the tasks handed
    in are, as whole records, the tasks handed out together with the tasks
    still stored. *)
Theorem tasks_unchanged (calls : list call) (queue0 queue : TaskQueue.t)
    (rs : list (option Task.t)) :
  exec calls queue0 = inr (rs, queue) →
  queue0 ++ added calls ≡ₚ returned rs ++ queue ∧
  (∀ task q, ∃ l1 l2,
     q = l1 ++ l2 ∧ TaskQueue.add_task task q = inr (l1 ++ task :: l2)) ∧
  (∀ available q,
     TaskQueue.get_task available q = inr (None, q) ∨
     ∃ l1 task l2, q = l1 ++ task :: l2 ∧
       TaskQueue.get_task available q = inr (Some task, l1 ++ l2)).
Proof.
  intros Hex. split_and!.
  - by apply exec_Permutation.
  - intros task q. destruct (add_task_position task q) as (p & _ & Hadd & _).
    exists (take p q), (drop p q). by rewrite take_drop.
  - intros available q.
    destruct (get_task_cases available q)
      as [[_ ?]|(l1 & t & l2 & ? & _ & _ & ?)]; [by left|].
    right. by exists l1, t, l2.
Qed.

(** ** The reference scenario *)

Lemma reference_queue_sorted : sorted_by_key reference_queue.
Proof.
  apply sorted_by_key_StronglySorted.
  by_computation.
Qed.

Lemma reference_queue_Permutation : reference_queue ≡ₚ reference_tasks.
Proof. by_computation. Qed.

Lemma reference_keys_distinct x1 x2 :
  x1 ∈ reference_queue → x2 ∈ reference_queue →
  key_le x1 x2 → key_le x2 x1 → x1 = x2.
Proof.
  unfold reference_queue. rewrite !elem_of_cons, !elem_of_nil.
  intros H1 H2 K1 K2; destruct_or!; try done; subst;
    first [reflexivity | exfalso; unfold key_le, magnitude in *; cbn in *; lia].
Qed.

(** C8.  Added in any order, the eight reference tasks end up in the order
    of ids 1, 6, 2, 3, 4, 7, 8, 5.  On that queue, polling with (1,1,10),
    then (3,3,3), then (3,3,3) again hands out the tasks 2, 5 and 6, and
    polling with (-1,-1,-1) hands out nothing, before as well as after
    those three polls. *)
Theorem reference_scenario (tasks : list Task.t) :
  tasks ≡ₚ reference_tasks →
  ∃ queue q1 q2 q3 t2 t5 t6,
    add_tasks tasks TaskQueue.init = inr queue ∧
    Task.id <$> queue = [1; 6; 2; 3; 4; 7; 8; 5] ∧
    TaskQueue.get_task (Resources.Build 1 1 10) queue = inr (Some t2, q1) ∧
    Task.id t2 = 2 ∧
    TaskQueue.get_task (Resources.Build 3 3 3) q1 = inr (Some t5, q2) ∧
    Task.id t5 = 5 ∧
    TaskQueue.get_task (Resources.Build 3 3 3) q2 = inr (Some t6, q3) ∧
    Task.id t6 = 6 ∧
    TaskQueue.get_task (Resources.Build (-1) (-1) (-1)) queue
      = inr (None, queue) ∧
    TaskQueue.get_task (Resources.Build (-1) (-1) (-1)) q3 = inr (None, q3).
Proof.
  intros Hperm.
  destruct (add_tasks_sorted tasks TaskQueue.init) as (q & Hq & Hs & Hp).
  { intros i j a b _ Hi. unfold TaskQueue.init in Hi.
    by rewrite lookup_nil in Hi. }
  rewrite (right_id [] _), Hperm, <- reference_queue_Permutation in Hp.
  assert (q = reference_queue) as ->.
  { apply (StronglySorted_unique_strong key_le); [| |
      apply sorted_by_key_StronglySorted, reference_queue_sorted | done].
    - intros x1 x2 Hx1 Hx2. rewrite Hp in Hx1.
      by apply reference_keys_distinct.
    - by apply sorted_by_key_StronglySorted. }
  eexists reference_queue, _, _, _, _, _, _.
  split; [exact Hq|].
  split; [reflexivity|].
  split; [vm_compute; reflexivity|].
  split; [reflexivity|].
  split; [vm_compute; reflexivity|].
  split; [reflexivity|].
  split; [vm_compute; reflexivity|].
  split; [reflexivity|].
  split; vm_compute; reflexivity.
Qed.

(** ** Order-equivalent tasks *)

Lemma order_equiv_key_le a b : order_equiv a b ↔ key_le a b ∧ key_le b a.
Proof. unfold order_equiv, key_le. lia. Qed.

Lemma add_task_filter g task queue queue' :
  sorted_by_key queue →
  TaskQueue.add_task task queue = inr queue' →
  filter (order_equiv g) queue' =
  filter (order_equiv g) queue ++ filter (order_equiv g) [task].
Proof.
  intros Hsort Hadd.
  destruct (add_task_split task queue Hsort) as (l1 & l2 & -> & Hq & _ & H2).
  rewrite Hq in Hadd. injection Hadd as <-.
  rewrite !filter_app.
  destruct (decide (order_equiv g task)) as [Hg|Hg].
  - rewrite !filter_cons_True, filter_nil by done.
    assert (filter (order_equiv g) l2 = []) as ->; [|by rewrite (right_id [] _)].
    clear Hsort Hq. induction H2 as [|e l He Hl IH]; [done|].
    rewrite filter_cons_False; [done|].
    intros Hge. apply Task_lt_spec in He.
    unfold order_equiv in *. lia.
  - rewrite !filter_cons_False, filter_nil by done.
    by rewrite (right_id [] _).
Qed.

Lemma add_tasks_filter g tasks queue queue' :
  sorted_by_key queue →
  add_tasks tasks queue = inr queue' →
  filter (order_equiv g) queue' =
  filter (order_equiv g) queue ++ filter (order_equiv g) tasks.
Proof.
  revert queue. induction tasks as [|t ts IH]; intros q Hsort; cbn [add_tasks].
  - intros [= <-]. by rewrite filter_nil, (right_id [] _).
  - intros Hall.
    destruct (TaskQueue.add_task t q) as [e|q1] eqn:Hadd; [done|].
    cbn in Hall. rewrite (IH q1); [|by eapply add_task_sorted|done].
    rewrite (add_task_filter g t q q1) by done.
    rewrite <- app_assoc. f_equal.
    change (t :: ts) with ([t] ++ ts). by rewrite filter_app.
Qed.

Lemma first_match_unique {A} (P : A → Prop) (b b' a a' : list A) (x x' : A) :
  b ++ x :: a = b' ++ x' :: a' →
  Forall (λ e, ¬ P e) b → Forall (λ e, ¬ P e) b' → P x → P x' → x = x'.
Proof.
  intros E Hb. revert b' E. induction Hb as [|e b He Hb IH]; intros b' E Hb' Px Px'.
  - destruct Hb' as [|e' b' He' Hb']; cbn in E; [congruence|].
    injection E as -> _. done.
  - destruct Hb' as [|e' b' He' Hb']; cbn in E.
    + injection E as -> _. done.
    + injection E as _ E. by eapply IH.
Qed.

Lemma last_match_unique {A} (P : A → Prop) (a a' b b' : list A) (x x' : A) :
  a ++ x :: b = a' ++ x' :: b' →
  Forall (λ e, ¬ P e) b → Forall (λ e, ¬ P e) b' → P x → P x' → x = x'.
Proof.
  intros E Hb Hb' Px Px'.
  apply (f_equal reverse) in E. rewrite !reverse_app, !reverse_cons in E.
  rewrite <- !app_assoc in E. cbn in E.
  by eapply (first_match_unique P); [exact E | apply Forall_reverse..| |].
Qed.

(** C9, as stated, fails when a task placed behind the order-equivalent
    ones fits too: [older] and [newer] are order-equivalent and both fit,
    [newer] is the task added last, and [get_task] hands out [urgent]. *)
Lemma get_task_prefers_later_position :
  add_tasks [urgent; older; newer] TaskQueue.init = inr [older; newer; urgent] ∧
  order_equiv older newer ∧
  dominated (Task.resources older) (Resources.Build 1 1 1) ∧
  dominated (Task.resources newer) (Resources.Build 1 1 1) ∧
  TaskQueue.get_task (Resources.Build 1 1 1) [older; newer; urgent]
    = inr (Some urgent, [older; newer]) ∧
  urgent ≠ newer ∧ urgent ≠ older.
Proof.
  split_and!; try done.
  - by apply fits_dominated.
  - by apply fits_dominated.
Qed.

(** C9, amended.  [add_task] places a task behind every stored task that is
    order-equivalent to it.  Consequently, of several order-equivalent
    tasks that fit, [get_task] hands out the one added last, provided no
    fitting task sorts strictly behind them. *)
Theorem add_task_after_equivalents (queue0 queue : TaskQueue.t)
    (tasks : list Task.t) (available : Resources.t) (m : nat) (g : Task.t) :
  sorted_by_key queue0 →
  add_tasks tasks queue0 = inr queue →
  tasks !! m = Some g →
  dominated (Task.resources g) available →
  (∀ j t', (m < j)%nat → tasks !! j = Some t' → order_equiv g t' →
     ¬ dominated (Task.resources t') available) →
  (∀ t', t' ∈ queue → dominated (Task.resources t') available → key_le t' g) →
  (∀ task, ∃ l1 l2,
     queue0 = l1 ++ l2 ∧
     TaskQueue.add_task task queue0 = inr (l1 ++ task :: l2) ∧
     ∀ e, e ∈ l2 → ¬ order_equiv task e) ∧
  ∃ queue', TaskQueue.get_task available queue = inr (Some g, queue').
Proof.
  intros Hsort0 Hadd Hm Hg%fits_dominated Hnewer Hbehind. split.
  { intros task.
    destruct (add_task_split task queue0 Hsort0) as (l1 & l2 & E & Hq & _ & H2).
    exists l1, l2. split_and!; [done..|].
    intros e He [Hp Hmag]. rewrite list.Forall_forall in H2.
    specialize (H2 e He). apply Task_lt_spec in H2. lia. }
  destruct (add_tasks_sorted tasks queue0 Hsort0) as (q & Hq & Hsort & Hperm).
  rewrite Hadd in Hq. injection Hq as <-.
  pose proof (add_tasks_filter g tasks queue0 queue Hsort0 Hadd) as Hfilter.
  assert (g ∈ queue) as Hin.
  { rewrite Hperm. apply elem_of_app. left. by eapply list_elem_of_lookup_2. }
  destruct (get_task_cases available queue)
    as [[Hf _]|(l1 & t & l2 & -> & Ht & Hf & Hget)].
  { rewrite list.Forall_forall in Hf. rewrite (Hf _ Hin) in Hg. done. }
  exists (l1 ++ l2). rewrite Hget. do 3 f_equal.
  assert (order_equiv g t) as Hequiv.
  { apply order_equiv_key_le. split.
    - apply elem_of_app in Hin as [Hin|Hin].
      + rewrite sorted_by_key_StronglySorted in Hsort.
        apply StronglySorted_app in Hsort as (S12 & _ & _).
        apply S12; [done | by left].
      + apply elem_of_cons in Hin as [->|Hin]; [unfold key_le; lia|].
        rewrite list.Forall_forall in Hf. rewrite (Hf _ Hin) in Hg. done.
    - apply Hbehind; [|by apply fits_dominated].
      apply elem_of_app. right. by left. }
  rewrite <- (take_drop_middle tasks m g Hm) in Hfilter.
  rewrite !filter_app, !filter_cons_True in Hfilter
    by (done || apply order_equiv_key_le; split; unfold key_le; lia).
  rewrite app_assoc in Hfilter.
  apply (last_match_unique (λ e, fits available e = true)) in Hfilter; try done.
  - apply list.Forall_forall. intros e He%list_elem_of_filter.
    rewrite list.Forall_forall in Hf. rewrite (Hf e) by apply He. done.
  - apply list.Forall_forall. intros e [He [k Hk]%list_elem_of_lookup]%list_elem_of_filter.
    rewrite lookup_drop in Hk.
    apply not_true_iff_false, fits_not_dominated.
    apply (Hnewer (S m + k)%nat); [lia | done..].
Qed.

(** * Instances

    Each property with a premise, applied to the reference queue or to one
    of the small task sets. *)

Lemma get_task_greedy_reference :
  (∃ task, task ∈ reference_queue ∧
     dominated (Task.resources task) (Resources.Build 3 3 3)) ∧
  ∃ (i : nat) (task : Task.t),
    reference_queue !! i = Some task ∧
    TaskQueue.get_task (Resources.Build 3 3 3) reference_queue
      = inr (Some task, delete i reference_queue) ∧
    dominated (Task.resources task) (Resources.Build 3 3 3) ∧
    ∀ (j : nat) (other : Task.t),
      (i < j)%nat → reference_queue !! j = Some other →
      ¬ dominated (Task.resources other) (Resources.Build 3 3 3).
Proof.
  assert (∃ task, task ∈ reference_queue ∧
            dominated (Task.resources task) (Resources.Build 3 3 3)) as H.
  { exists (mk 6 2 2 1 2). split; [by_computation|].
    apply fits_dominated. reflexivity. }
  split; [exact H|]. exact (get_task_greedy _ _ H).
Defined.

Lemma sortedness_invariant_reference :
  sorted_by_key reference_queue ∧
  (∃ queue',
     TaskQueue.add_task (mk 9 6 3 3 3) reference_queue = inr queue' ∧
     sorted_by_key queue') ∧
  (∃ r queue',
     TaskQueue.get_task (Resources.Build 3 3 3) reference_queue
       = inr (r, queue') ∧
     sorted_by_key queue').
Proof.
  split; [exact reference_queue_sorted|].
  pose proof (sortedness_invariant reference_queue reference_queue_sorted)
    as (Hadd & Hget & _).
  split; [apply Hadd | apply Hget].
Defined.

Lemma get_task_admissible_reference :
  TaskQueue.get_task (Resources.Build 1 1 10) reference_queue
    = inr (Some (mk 2 4 1 1 5), delete 2%nat reference_queue) ∧
  dominated (Task.resources (mk 2 4 1 1 5)) (Resources.Build 1 1 10).
Proof.
  assert (TaskQueue.get_task (Resources.Build 1 1 10) reference_queue
            = inr (Some (mk 2 4 1 1 5), delete 2%nat reference_queue)) as H
    by reflexivity.
  split; [exact H|]. exact (get_task_admissible _ _ _ _ H).
Defined.

Lemma get_task_removes_reference :
  TaskQueue.get_task (Resources.Build 1 1 10) reference_queue
    = inr (Some (mk 2 4 1 1 5), delete 2%nat reference_queue) ∧
  length (delete 2%nat reference_queue) = (length reference_queue - 1)%nat ∧
  mk 2 4 1 1 5 ∉ delete 2%nat reference_queue.
Proof.
  assert (TaskQueue.get_task (Resources.Build 1 1 10) reference_queue
            = inr (Some (mk 2 4 1 1 5), delete 2%nat reference_queue)) as H
    by reflexivity.
  split; [exact H|].
  pose proof (get_task_removes _ _ _ _ H) as (l1 & l2 & _ & _ & Hlen & _ & Hid).
  split; [exact Hlen|]. apply Hid. by_computation.
Defined.

Lemma get_task_no_fit_reference :
  (∀ task, task ∈ reference_queue →
     ¬ dominated (Task.resources task) (Resources.Build (-1) (-1) (-1))) ∧
  TaskQueue.get_task (Resources.Build (-1) (-1) (-1)) reference_queue
    = inr (None, reference_queue).
Proof.
  assert (∀ task, task ∈ reference_queue →
            ¬ dominated (Task.resources task) (Resources.Build (-1) (-1) (-1)))
    as H.
  { intros task Hin. apply fits_not_dominated. revert task Hin.
    apply list.Forall_forall. by_computation. }
  split; [exact H|].
  exact (proj1 (proj2 (get_task_no_fit _ _ H))).
Defined.

Lemma Resources_lt_equal_magnitude :
  Resources.ram (Resources.Build 100 0 0)
    + Resources.cpu_cores (Resources.Build 100 0 0)
    + Resources.gpu_count (Resources.Build 100 0 0)
  = Resources.ram (Resources.Build 0 50 50)
    + Resources.cpu_cores (Resources.Build 0 50 50)
    + Resources.gpu_count (Resources.Build 0 50 50) ∧
  Resources.lt (Resources.Build 100 0 0) (Resources.Build 0 50 50) = false ∧
  Resources.lt (Resources.Build 0 50 50) (Resources.Build 100 0 0) = false.
Proof.
  split; [reflexivity|].
  exact (proj2 Resources_lt_iff_magnitude
           (Resources.Build 100 0 0) (Resources.Build 0 50 50) eq_refl).
Defined.

Lemma reference_scenario_reversed :
  reverse reference_tasks ≡ₚ reference_tasks ∧
  ∃ queue,
    add_tasks (reverse reference_tasks) TaskQueue.init = inr queue ∧
    Task.id <$> queue = [1; 6; 2; 3; 4; 7; 8; 5].
Proof.
  assert (reverse reference_tasks ≡ₚ reference_tasks) as H by by_computation.
  split; [exact H|].
  pose proof (reference_scenario _ H)
    as (queue & _ & _ & _ & _ & _ & _ & Hadd & Hids & _).
  exists queue. split; [exact Hadd | exact Hids].
Defined.

Lemma add_task_after_equivalents_small :
  add_tasks [older; newer; bulky] TaskQueue.init = inr [older; newer; bulky] ∧
  order_equiv older newer ∧
  ∃ queue',
    TaskQueue.get_task (Resources.Build 1 1 1) [older; newer; bulky]
      = inr (Some newer, queue').
Proof.
  split; [reflexivity|]. split; [by_computation|].
  refine (proj2 (add_task_after_equivalents TaskQueue.init
    [older; newer; bulky] [older; newer; bulky] (Resources.Build 1 1 1)
    1%nat newer _ eq_refl eq_refl _ _ _)).
  - intros i j a b _ Hi. unfold TaskQueue.init in Hi.
    by rewrite lookup_nil in Hi.
  - apply fits_dominated. reflexivity.
  - intros j t' Hj Hl He. destruct j as [|[|[|j]]]; try lia; cbn in Hl.
    + injection Hl as <-. unfold order_equiv in He. cbn in He. lia.
    + discriminate.
  - intros t' Hin Hfit%fits_dominated.
    rewrite !elem_of_cons, elem_of_nil in Hin.
    destruct Hin as [->|[->|[->|[]]]]; [by_computation | by_computation |].
    discriminate.
Defined.

Lemma tasks_unchanged_reference :
  exec ((Add <$> reference_tasks) ++ [Get (Resources.Build 1 1 10)])
    TaskQueue.init
    = inr ([Some (mk 2 4 1 1 5)], delete 2%nat reference_queue) ∧
  TaskQueue.init
    ++ added ((Add <$> reference_tasks) ++ [Get (Resources.Build 1 1 10)])
  ≡ₚ returned [Some (mk 2 4 1 1 5)] ++ delete 2%nat reference_queue.
Proof.
  assert (exec ((Add <$> reference_tasks) ++ [Get (Resources.Build 1 1 10)])
            TaskQueue.init
          = inr ([Some (mk 2 4 1 1 5)], delete 2%nat reference_queue)) as H
    by reflexivity.
  split; [exact H|]. exact (proj1 (tasks_unchanged _ _ _ _ H)).
Defined.

(** * Further properties of the comparison methods *)

(** X1.  [Task.__lt__] is a strict weak order: no task is below itself, the
    relation is asymmetric and transitive, two tasks are unordered exactly
    when they have the same priority and the same sum of resources, and
    being not-below is transitive as well.  Identifier, content and result
    play no part. *)
Theorem Task_lt_strict_weak_order :
  (∀ a, Task.lt a a = false) ∧
  (∀ a b, Task.lt a b = true → Task.lt b a = false) ∧
  (∀ a b c, Task.lt a b = true → Task.lt b c = true → Task.lt a c = true) ∧
  (∀ a b,
     Task.lt a b = false ∧ Task.lt b a = false ↔
     Task.priority a = Task.priority b ∧
     Resources.sum (Resources.astuple (Task.resources a))
       = Resources.sum (Resources.astuple (Task.resources b))) ∧
  (∀ a b c, Task.lt a b = false → Task.lt b c = false → Task.lt a c = false).
Proof.
  split_and!.
  - intros a. apply Task_lt_false. unfold key_le. lia.
  - intros a b H%Task_lt_spec. apply Task_lt_false. unfold key_le. lia.
  - intros a b c H1%Task_lt_spec H2%Task_lt_spec. apply Task_lt_spec. lia.
  - intros a b. rewrite !Task_lt_false, !sum_astuple. unfold key_le. lia.
  - intros a b c H1%Task_lt_false H2%Task_lt_false. apply Task_lt_false.
    by etrans.
Qed.

Lemma Task_lt_chain_reference :
  Task.lt (mk 3 6 2 8 0) (mk 4 6 8 1 0) = true ∧
  Task.lt (mk 4 6 8 1 0) (mk 7 7 6 6 6) = true ∧
  Task.lt (mk 3 6 2 8 0) (mk 7 7 6 6 6) = true ∧
  Task.lt (mk 7 7 6 6 6) (mk 3 6 2 8 0) = false.
Proof.
  assert (Task.lt (mk 3 6 2 8 0) (mk 4 6 8 1 0) = true) as H1 by reflexivity.
  assert (Task.lt (mk 4 6 8 1 0) (mk 7 7 6 6 6) = true) as H2 by reflexivity.
  pose proof Task_lt_strict_weak_order as (_ & Hasym & Htrans & _).
  split; [exact H1|]. split; [exact H2|].
  split; [exact (Htrans _ _ _ H1 H2)|].
  exact (Hasym _ _ (Htrans _ _ _ H1 H2)).
Defined.

(** X2.  [satisfy] is a partial order on resource vectors: every vector
    satisfies itself, two vectors that satisfy each other are equal, and
    what fits into a vector fits into every vector that vector fits into. *)
Theorem satisfy_partial_order :
  (∀ a, Resources.satisfy a a = true) ∧
  (∀ a b,
     Resources.satisfy a b = true → Resources.satisfy b a = true → a = b) ∧
  (∀ a b c,
     Resources.satisfy a b = true → Resources.satisfy b c = true →
     Resources.satisfy a c = true).
Proof.
  split_and!.
  - intros a. apply satisfy_fields. lia.
  - intros [a1 a2 a3] [b1 b2 b3] H1%satisfy_fields H2%satisfy_fields.
    cbn in *. f_equal; lia.
  - intros a b c H1%satisfy_fields H2%satisfy_fields.
    apply satisfy_fields. lia.
Qed.

Lemma satisfy_chain_small :
  Resources.satisfy (Resources.Build 1 1 5) (Resources.Build 1 1 10) = true ∧
  Resources.satisfy (Resources.Build 1 1 10) (Resources.Build 2 3 10) = true ∧
  Resources.satisfy (Resources.Build 1 1 5) (Resources.Build 2 3 10) = true.
Proof.
  assert (Resources.satisfy (Resources.Build 1 1 5) (Resources.Build 1 1 10)
            = true) as H1 by reflexivity.
  assert (Resources.satisfy (Resources.Build 1 1 10) (Resources.Build 2 3 10)
            = true) as H2 by reflexivity.
  split; [exact H1|]. split; [exact H2|].
  exact (proj2 (proj2 satisfy_partial_order) _ _ _ H1 H2).
Defined.

(** X3.  The two relations on resource vectors agree in one direction only:
    a vector that satisfies another is never above it in the [<] of
    [Resources], and is strictly below it unless the two are equal; the
    converse fails, a vector of smaller sum need not fit. *)
Theorem satisfy_implies_not_above (a b : Resources.t) :
  Resources.satisfy a b = true →
  Resources.lt b a = false ∧
  (a ≠ b → Resources.lt a b = true) ∧
  Resources.lt (Resources.Build 100 0 0) (Resources.Build 50 50 50) = true ∧
  Resources.satisfy (Resources.Build 100 0 0) (Resources.Build 50 50 50)
    = false.
Proof.
  intros H%satisfy_fields. split_and!; [| |done..].
  - apply not_true_iff_false. rewrite Resources_lt_magnitude.
    unfold magnitude. lia.
  - intros Hne. apply Resources_lt_magnitude. unfold magnitude.
    destruct a as [a1 a2 a3], b as [b1 b2 b3]; cbn in *.
    destruct (decide (a1 = b1)) as [->|]; [|lia].
    destruct (decide (a2 = b2)) as [->|]; [|lia].
    destruct (decide (a3 = b3)) as [->|]; [|lia].
    done.
Qed.

Lemma satisfy_implies_not_above_small :
  Resources.satisfy (Resources.Build 1 1 5) (Resources.Build 1 1 10) = true ∧
  Resources.lt (Resources.Build 1 1 10) (Resources.Build 1 1 5) = false.
Proof.
  assert (Resources.satisfy (Resources.Build 1 1 5) (Resources.Build 1 1 10)
            = true) as H by reflexivity.
  split; [exact H|]. exact (proj1 (satisfy_implies_not_above _ _ H)).
Defined.

(** * Further properties of insertion *)

Lemma filter_all {A} (P : A → Prop) `{∀ x, Decision (P x)} (l : list A) :
  Forall P l → filter P l = l.
Proof.
  induction 1 as [|x l Hx Hl IH]; [done|].
  by rewrite filter_cons_True, IH.
Qed.

Lemma filter_none {A} (P : A → Prop) `{∀ x, Decision (P x)} (l : list A) :
  Forall (λ x, ¬ P x) l → filter P l = [].
Proof.
  induction 1 as [|x l Hx Hl IH]; [done|].
  by rewrite filter_cons_False.
Qed.

Lemma order_equiv_refl a : order_equiv a a.
Proof. by split. Qed.

Lemma order_equiv_sym a b : order_equiv a b → order_equiv b a.
Proof. unfold order_equiv. lia. Qed.

(** A sorted list is determined by the sequences of its order-equivalent
    members. *)
Lemma sorted_stable_unique (l1 l2 : list Task.t) :
  StronglySorted key_le l1 → StronglySorted key_le l2 →
  (∀ g, filter (order_equiv g) l1 = filter (order_equiv g) l2) →
  l1 = l2.
Proof.
  intros S1. revert l2. induction S1 as [|a l1 S1 IH Ha]; intros l2 S2 Hf.
  - destruct l2 as [|b l2]; [done|].
    specialize (Hf b). rewrite filter_nil, filter_cons_True in Hf
      by apply order_equiv_refl.
    done.
  - destruct S2 as [|b l2 S2 Hb].
    { specialize (Hf a). rewrite filter_nil, filter_cons_True in Hf
        by apply order_equiv_refl.
      done. }
    assert (a = b) as <-.
    { pose proof (Hf a) as Hfa. pose proof (Hf b) as Hfb.
      rewrite (filter_cons_True _ a) in Hfa by apply order_equiv_refl.
      rewrite (filter_cons_True _ b l2) in Hfb by apply order_equiv_refl.
      destruct (decide (order_equiv a b)) as [Hab|Hab].
      - rewrite filter_cons_True in Hfa by done. congruence.
      - rewrite filter_cons_False in Hfa by done.
        rewrite filter_cons_False in Hfb
          by (intros ?; by apply Hab, order_equiv_sym).
        assert (a ∈ l2) as Hin2.
        { eapply (list_elem_of_filter (order_equiv a)).
          rewrite <- Hfa. by left. }
        assert (b ∈ l1) as Hin1.
        { eapply (list_elem_of_filter (order_equiv b)).
          rewrite Hfb. by left. }
        rewrite list.Forall_forall in Ha, Hb.
        destruct Hab. apply order_equiv_key_le. split; [by apply Ha|by apply Hb]. }
    f_equal. apply IH; [done|].
    intros g. specialize (Hf g). rewrite !filter_cons in Hf.
    destruct (decide (order_equiv g a)); congruence.
Qed.

Lemma Permutation_all_equal {A} (l1 l2 : list A) :
  l1 ≡ₚ l2 → (∀ x y, x ∈ l1 → y ∈ l1 → x = y) → l1 = l2.
Proof.
  induction 1 as [|x l l' Hp IH|x y l|l l' l'' Hp1 IH1 Hp2 IH2]; intros Heq.
  - done.
  - f_equal. apply IH. intros a b Ha Hb.
    apply Heq; by apply elem_of_cons; right.
  - rewrite (Heq x y); [done| |].
    + apply elem_of_cons. right. by left.
    + by left.
  - rewrite <- (IH1 Heq) in IH2. by apply IH2.
Qed.

Lemma add_tasks_same_classes queue0 tasks1 tasks2 :
  sorted_by_key queue0 →
  (∀ g, filter (order_equiv g) tasks1 = filter (order_equiv g) tasks2) →
  add_tasks tasks1 queue0 = add_tasks tasks2 queue0.
Proof.
  intros Hsort Hf.
  destruct (add_tasks_sorted tasks1 queue0 Hsort) as (q1 & Hq1 & Hs1 & _).
  destruct (add_tasks_sorted tasks2 queue0 Hsort) as (q2 & Hq2 & Hs2 & _).
  rewrite Hq1, Hq2. f_equal.
  apply sorted_stable_unique; [by apply sorted_by_key_StronglySorted..|].
  intros g.
  rewrite (add_tasks_filter g tasks1 queue0 q1),
    (add_tasks_filter g tasks2 queue0 q2) by done.
  by rewrite Hf.
Qed.

(** X4.  On a sorted queue [add_task] never raises and puts the task at the
    index equal to the number of stored tasks the new task is not below
    (in the sense of [Task.__lt__]); the stored tasks keep their places
    around it and the queue grows by one. *)
Theorem add_task_index (task : Task.t) (queue : TaskQueue.t) :
  sorted_by_key queue →
  ∃ queue',
    TaskQueue.add_task task queue = inr queue' ∧
    queue' =
      list_insert_at
        (length (filter (λ e, Task.lt task e = false) queue)) task queue ∧
    length queue' = S (length queue).
Proof.
  intros Hsort.
  destruct (add_task_split task queue Hsort) as (l1 & l2 & -> & Hq & H1 & H2).
  exists (l1 ++ task :: l2). split; [done|].
  rewrite filter_app, (filter_all _ l1), (filter_none _ l2), (right_id [] _).
  - unfold list_insert_at. rewrite take_app_length, drop_app_length.
    split; [done|]. rewrite !length_app. cbn. lia.
  - eapply Forall_impl; [exact H2|]. intros e ->. done.
  - done.
Qed.

Lemma add_task_index_reference :
  sorted_by_key reference_queue ∧
  TaskQueue.add_task (mk 9 6 3 3 3) reference_queue
    = inr (list_insert_at 5%nat (mk 9 6 3 3 3) reference_queue).
Proof.
  split; [exact reference_queue_sorted|].
  pose proof (add_task_index (mk 9 6 3 3 3) reference_queue
                reference_queue_sorted) as (q & Hadd & Hq & _).
  rewrite Hadd, Hq. reflexivity.
Defined.

(** X5.  Insertion is stable: after a run of [add_task] calls on a sorted
    queue, the tasks order-equivalent to any given task are, in queue order,
    those that were already stored followed by the new ones in the order in
    which they were added. *)
Theorem add_tasks_stable (queue0 queue : TaskQueue.t) (tasks : list Task.t)
    (g : Task.t) :
  sorted_by_key queue0 →
  add_tasks tasks queue0 = inr queue →
  filter (order_equiv g) queue =
  filter (order_equiv g) queue0 ++ filter (order_equiv g) tasks.
Proof. apply add_tasks_filter. Qed.

Lemma add_tasks_stable_small :
  add_tasks [newer; urgent; older] [duplicate] = inr [duplicate; newer; older; urgent] ∧
  filter (order_equiv older) [duplicate; newer; older; urgent]
    = filter (order_equiv older) [duplicate]
      ++ filter (order_equiv older) [newer; urgent; older].
Proof.
  assert (add_tasks [newer; urgent; older] [duplicate]
            = inr [duplicate; newer; older; urgent]) as H by reflexivity.
  split; [exact H|].
  refine (add_tasks_stable [duplicate] _ _ older _ H).
  intros i j a b Hij Hi Hj. destruct j as [|j]; [lia|]. discriminate.
Defined.

(** X6.  The queue built by a run of [add_task] calls depends on the order
    of the calls only through the order within each class of
    order-equivalent tasks: two runs that list every such class in the same
    order produce the same queue. *)
Theorem add_tasks_order_irrelevant (queue0 : TaskQueue.t)
    (tasks1 tasks2 : list Task.t) :
  sorted_by_key queue0 →
  (∀ g, filter (order_equiv g) tasks1 = filter (order_equiv g) tasks2) →
  add_tasks tasks1 queue0 = add_tasks tasks2 queue0 ∧
  ∃ queue, add_tasks tasks1 queue0 = inr queue.
Proof.
  intros Hsort Hf. split; [by apply add_tasks_same_classes|].
  destruct (add_tasks_sorted tasks1 queue0 Hsort) as (q & Hq & _). by exists q.
Qed.

Lemma add_tasks_order_irrelevant_small :
  add_tasks [older; urgent; newer] TaskQueue.init
    = add_tasks [urgent; older; newer] TaskQueue.init.
Proof.
  refine (proj1 (add_tasks_order_irrelevant TaskQueue.init
                   [older; urgent; newer] [urgent; older; newer] _ _)).
  - intros i j a b _ Hi. discriminate.
  - intros g. rewrite !filter_cons, !filter_nil.
    destruct (decide (order_equiv g older)), (decide (order_equiv g urgent)),
      (decide (order_equiv g newer)); try reflexivity;
      exfalso; unfold order_equiv, magnitude in *; cbn in *; lia.
Defined.

(** X7.  When no two distinct tasks of a collection are order-equivalent,
    adding them to a sorted queue in any order produces the same queue. *)
Theorem add_tasks_distinct_keys (queue0 : TaskQueue.t)
    (tasks1 tasks2 : list Task.t) :
  sorted_by_key queue0 →
  tasks1 ≡ₚ tasks2 →
  (∀ x y, x ∈ tasks1 → y ∈ tasks1 → order_equiv x y → x = y) →
  add_tasks tasks1 queue0 = add_tasks tasks2 queue0 ∧
  ∃ queue, add_tasks tasks1 queue0 = inr queue.
Proof.
  intros Hsort Hperm Hdist. split.
  - apply add_tasks_same_classes; [done|]. intros g.
    apply Permutation_all_equal; [by rewrite Hperm|].
    intros x y [Hx Hinx]%list_elem_of_filter [Hy Hiny]%list_elem_of_filter.
    apply Hdist; [done..|].
    unfold order_equiv in *. lia.
  - destruct (add_tasks_sorted tasks1 queue0 Hsort) as (q & Hq & _).
    by exists q.
Qed.

Lemma add_tasks_distinct_keys_reference :
  reference_tasks ≡ₚ reverse reference_tasks ∧
  add_tasks reference_tasks [mk 9 6 3 3 3]
    = add_tasks (reverse reference_tasks) [mk 9 6 3 3 3].
Proof.
  assert (reference_tasks ≡ₚ reverse reference_tasks) as H by by_computation.
  split; [exact H|].
  refine (proj1 (add_tasks_distinct_keys [mk 9 6 3 3 3] _ _ _ H _)).
  - intros i j a b Hij Hi Hj. destruct j as [|j]; [lia|]. discriminate.
  - intros x y Hx Hy. rewrite <- reference_queue_Permutation in Hx, Hy.
    rewrite order_equiv_key_le. intros [? ?].
    by apply reference_keys_distinct.
Defined.

(** * Further properties of the admission scan *)

Lemma first_match_split {A} (P : A → Prop) (b b' a a' : list A) (x x' : A) :
  b ++ x :: a = b' ++ x' :: a' →
  Forall (λ e, ¬ P e) b → Forall (λ e, ¬ P e) b' → P x → P x' →
  b = b' ∧ x = x' ∧ a = a'.
Proof.
  intros E Hb. revert b' E.
  induction Hb as [|e b He Hb IH]; intros b' E Hb' Px Px'.
  - destruct Hb' as [|e' b' He' Hb']; cbn in E; [by simplify_eq|].
    injection E as -> _. done.
  - destruct Hb' as [|e' b' He' Hb']; cbn in E.
    + injection E as -> _. done.
    + injection E as -> E. destruct (IH b' E) as (-> & -> & ->); done.
Qed.

Lemma last_match_split {A} (P : A → Prop) (a a' b b' : list A) (x x' : A) :
  a ++ x :: b = a' ++ x' :: b' →
  Forall (λ e, ¬ P e) b → Forall (λ e, ¬ P e) b' → P x → P x' →
  a = a' ∧ x = x' ∧ b = b'.
Proof.
  intros E Hb Hb' Px Px'.
  apply (f_equal reverse) in E. rewrite !reverse_app, !reverse_cons in E.
  rewrite <- !app_assoc in E. cbn in E.
  apply (first_match_split P) in E as (Eb & Ex & Ea);
    [|by apply Forall_reverse..|done|done].
  apply (inj reverse) in Eb, Ea. by subst.
Qed.

Lemma fits_false_not available (l : list Task.t) :
  Forall (λ e, fits available e = false) l →
  Forall (λ e, ¬ fits available e = true) l.
Proof. intros H. eapply Forall_impl; [exact H|]. intros e ->. done. Qed.

(** The scan stops at a fitting task behind which nothing fits. *)
Lemma get_task_at available (l1 l2 : list Task.t) (task : Task.t) :
  fits available task = true →
  Forall (λ e, fits available e = false) l2 →
  TaskQueue.get_task available (l1 ++ task :: l2)
    = inr (Some task, l1 ++ l2).
Proof.
  intros Ht Hf.
  destruct (get_task_cases available (l1 ++ task :: l2))
    as [[Hno _]|(a & t & b & E & Hfit & Hb & ->)].
  - apply Forall_app in Hno as [_ Hno]. apply Forall_cons in Hno as [Hno _].
    congruence.
  - apply (last_match_split (λ e, fits available e = true)) in E
      as (-> & -> & ->); by auto using fits_false_not.
Qed.

(** X8.  On a sorted queue the task handed out by [get_task] is the best of
    the fitting tasks: every stored task that fits has a lower priority, or
    the same priority and a sum of resources at least as large. *)
Theorem get_task_best_fit (queue queue' : TaskQueue.t)
    (available : Resources.t) (task : Task.t) :
  sorted_by_key queue →
  TaskQueue.get_task available queue = inr (Some task, queue') →
  ∀ other, other ∈ queue →
    Resources.satisfy (Task.resources other) available = true →
    Task.priority other < Task.priority task ∨
    (Task.priority other = Task.priority task ∧
     Resources.sum (Resources.astuple (Task.resources task))
       ≤ Resources.sum (Resources.astuple (Task.resources other))).
Proof.
  intros Hsort (l1 & l2 & -> & -> & Ht & Hf)%get_task_Some other Hin Hfit.
  rewrite !sum_astuple. change (key_le other task).
  apply sorted_by_key_StronglySorted in Hsort.
  apply StronglySorted_app in Hsort as (S12 & _ & _).
  apply elem_of_app in Hin as [Hin|Hin].
  - apply S12; [done | by left].
  - apply elem_of_cons in Hin as [->|Hin]; [unfold key_le; lia|].
    rewrite list.Forall_forall in Hf.
    change (fits available other = true) in Hfit.
    rewrite (Hf _ Hin) in Hfit. done.
Qed.

Lemma get_task_best_fit_reference :
  TaskQueue.get_task (Resources.Build 3 3 3) reference_queue
    = inr (Some (mk 5 7 2 2 2), delete 7%nat reference_queue) ∧
  (Task.priority (mk 6 2 2 1 2) < Task.priority (mk 5 7 2 2 2) ∨
   (Task.priority (mk 6 2 2 1 2) = Task.priority (mk 5 7 2 2 2) ∧
    Resources.sum (Resources.astuple (Task.resources (mk 5 7 2 2 2)))
      ≤ Resources.sum (Resources.astuple (Task.resources (mk 6 2 2 1 2))))).
Proof.
  assert (TaskQueue.get_task (Resources.Build 3 3 3) reference_queue
            = inr (Some (mk 5 7 2 2 2), delete 7%nat reference_queue)) as H
    by reflexivity.
  split; [exact H|].
  refine (get_task_best_fit _ _ _ _ reference_queue_sorted H
            (mk 6 2 2 1 2) _ eq_refl).
  by_computation.
Defined.

(** X9.  More room never yields a worse task.  If [get_task] hands out a
    task for [available] and [available] satisfies [available'], then
    [get_task] for [available'] hands out the task at the same or a later
    position, which on a sorted queue is the same or a later one in the
    composite order. *)
Theorem get_task_monotone (queue queue' : TaskQueue.t)
    (available available' : Resources.t) (task : Task.t) :
  Resources.satisfy available available' = true →
  TaskQueue.get_task available queue = inr (Some task, queue') →
  ∃ (i j : nat) (task' : Task.t),
    queue !! i = Some task ∧ queue' = delete i queue ∧
    queue !! j = Some task' ∧ (i ≤ j)%nat ∧
    TaskQueue.get_task available' queue = inr (Some task', delete j queue) ∧
    (sorted_by_key queue → key_le task task').
Proof.
  intros Hle (l1 & l2 & -> & -> & Ht & Hf)%get_task_Some.
  assert (fits available' task = true) as Ht'.
  { unfold fits in *. apply satisfy_fields in Hle, Ht.
    apply satisfy_fields. lia. }
  destruct (get_task_cases available' (l1 ++ task :: l2))
    as [[Hno _]|(a & t' & b & E & Hfit & Hb & Hget)].
  { apply Forall_app in Hno as [_ Hno]. apply Forall_cons in Hno as [Hno _].
    congruence. }
  assert ((l1 ++ task :: l2) !! length l1 = Some task) as Hi
    by apply list_lookup_middle, eq_refl.
  assert ((l1 ++ task :: l2) !! length a = Some t') as Hj
    by (rewrite E; apply list_lookup_middle, eq_refl).
  assert (length l1 ≤ length a)%nat as Hij.
  { destruct (decide (length l1 ≤ length a)%nat) as [|Hgt]; [done|].
    exfalso. rewrite E in Hi. rewrite lookup_app_r in Hi by lia.
    destruct (length l1 - length a)%nat as [|k] eqn:Ek; [lia|]. cbn in Hi.
    apply list_elem_of_lookup_2 in Hi.
    rewrite list.Forall_forall in Hb. rewrite (Hb _ Hi) in Ht'. done. }
  exists (length l1), (length a), t'. split_and!; try done.
  - by rewrite delete_middle.
  - rewrite Hget, E. by rewrite delete_middle.
  - intros Hsort.
    destruct (decide (length l1 = length a)) as [Eq|Hne].
    + rewrite Eq in Hi. rewrite Hi in Hj. injection Hj as <-.
      unfold key_le. lia.
    + apply (Hsort (length l1) (length a)); [lia | done..].
Qed.

Lemma get_task_monotone_reference :
  Resources.satisfy (Resources.Build 1 1 10) (Resources.Build 6 6 10) = true ∧
  TaskQueue.get_task (Resources.Build 1 1 10) reference_queue
    = inr (Some (mk 2 4 1 1 5), delete 2%nat reference_queue) ∧
  ∃ (i j : nat) (task' : Task.t),
    reference_queue !! i = Some (mk 2 4 1 1 5) ∧
    reference_queue !! j = Some task' ∧ (i ≤ j)%nat ∧
    TaskQueue.get_task (Resources.Build 6 6 10) reference_queue
      = inr (Some task', delete j reference_queue).
Proof.
  assert (TaskQueue.get_task (Resources.Build 1 1 10) reference_queue
            = inr (Some (mk 2 4 1 1 5), delete 2%nat reference_queue)) as H
    by reflexivity.
  assert (Resources.satisfy (Resources.Build 1 1 10) (Resources.Build 6 6 10)
            = true) as Hle by reflexivity.
  split; [exact Hle|]. split; [exact H|].
  pose proof (get_task_monotone _ _ _ _ _ Hle H)
    as (i & j & t' & Hi & _ & Hj & Hij & Hget & _).
  by exists i, j, t'.
Defined.

(** X10.  Adding and polling undo each other.  When a fitting task is added
    to a sorted queue in which no fitting task is above it (in the sense of
    [Task.__lt__]), the next [get_task] hands out that very task and leaves
    the queue as it was before the addition. *)
Theorem add_task_then_get_task (queue : TaskQueue.t)
    (available : Resources.t) (task : Task.t) :
  sorted_by_key queue →
  Resources.satisfy (Task.resources task) available = true →
  (∀ e, e ∈ queue →
     Resources.satisfy (Task.resources e) available = true →
     Task.lt task e = false) →
  ∃ queue',
    TaskQueue.add_task task queue = inr queue' ∧
    TaskQueue.get_task available queue' = inr (Some task, queue).
Proof.
  intros Hsort Ht Hno.
  destruct (add_task_split task queue Hsort) as (l1 & l2 & -> & Hq & _ & H2).
  exists (l1 ++ task :: l2). split; [done|].
  apply get_task_at; [done|].
  apply list.Forall_forall. intros e He.
  destruct (fits available e) eqn:Hfit; [|done].
  rewrite list.Forall_forall in H2. specialize (H2 e He).
  rewrite Hno in H2; [done | | done].
  apply elem_of_app. by right.
Qed.

Lemma add_task_then_get_task_reference :
  TaskQueue.add_task (mk 9 7 1 1 6) reference_queue
    = inr (list_insert_at 7%nat (mk 9 7 1 1 6) reference_queue) ∧
  TaskQueue.get_task (Resources.Build 1 1 10)
    (list_insert_at 7%nat (mk 9 7 1 1 6) reference_queue)
    = inr (Some (mk 9 7 1 1 6), reference_queue).
Proof.
  assert (∃ queue',
            TaskQueue.add_task (mk 9 7 1 1 6) reference_queue = inr queue' ∧
            TaskQueue.get_task (Resources.Build 1 1 10) queue'
              = inr (Some (mk 9 7 1 1 6), reference_queue))
    as (q & Hadd & Hget).
  { apply add_task_then_get_task;
      [exact reference_queue_sorted | reflexivity |].
    apply (proj1 (list.Forall_forall
      (λ e, Resources.satisfy (Task.resources e) (Resources.Build 1 1 10)
              = true → Task.lt (mk 9 7 1 1 6) e = false) reference_queue)).
    by_computation. }
  assert (TaskQueue.add_task (mk 9 7 1 1 6) reference_queue
            = inr (list_insert_at 7%nat (mk 9 7 1 1 6) reference_queue)) as E
    by reflexivity.
  split; [exact E|]. rewrite E in Hadd. injection Hadd as <-. exact Hget.
Defined.

Lemma exec_get_empty available k :
  exec (replicate k (Get available)) [] = inr (replicate k None, []).
Proof. induction k as [|k IH]; [done|]. cbn. by rewrite IH. Qed.

(** X11.  When every stored task fits, repeated polling empties the queue
    from the back: the first [len(queue)] calls hand out the tasks in
    reverse queue order, and every further call hands out nothing. *)
Theorem get_task_drains (queue : TaskQueue.t) (available : Resources.t)
    (k : nat) :
  (∀ task, task ∈ queue →
     Resources.satisfy (Task.resources task) available = true) →
  exec (replicate (length queue + k) (Get available)) queue
    = inr ((Some <$> reverse queue) ++ replicate k None, []).
Proof.
  induction queue as [|x q IH] using rev_ind; intros Hall.
  - apply exec_get_empty.
  - rewrite length_app, reverse_app. cbn.
    replace (length q + 1 + k)%nat with (S (length q + k)) by lia. cbn.
    rewrite (get_task_at available q [] x); [|apply Hall|constructor].
    + rewrite (right_id [] _). cbn. rewrite IH; [done|].
      intros t Ht. apply Hall. apply elem_of_app. by left.
    + apply elem_of_app. right. by left.
Qed.

Lemma get_task_drains_reference :
  (∀ task, task ∈ reference_queue →
     Resources.satisfy (Task.resources task) (Resources.Build 8 8 8) = true) ∧
  exec (replicate 9 (Get (Resources.Build 8 8 8))) reference_queue
    = inr ((Some <$> reverse reference_queue) ++ [None], []).
Proof.
  assert (∀ task, task ∈ reference_queue →
            Resources.satisfy (Task.resources task) (Resources.Build 8 8 8)
              = true) as H.
  { apply list.Forall_forall. by_computation. }
  split; [exact H|]. exact (get_task_drains reference_queue _ 1 H).
Defined.
